(** * Code Words blog: the site configuration module and the content documents

    The repository holds one JavaScript module, [config/index.js], whose whole
    body is [module.exports = { ... }], and a set of MDX articles that each
    open with a front-matter block.  This development embeds the module as a
    program of a small JavaScript fragment, runs it, and states the
    properties of the exported object; the articles are embedded by their
    leading lines and read with a front-matter reader. *)

From Stdlib Require Import ZArith Ascii String.
From stdpp Require Import gmap strings list fin_maps.

Set Warnings "-register-all,-clear-no-such-hyp".

Local Open Scope string_scope.

(** ** Text predicates *)

Module Text.

Fixpoint strip_prefix (p s : string) : option string :=
  match p, s with
  | EmptyString, _ => Some s
  | String a p', String b s' =>
      if Ascii.eqb a b then strip_prefix p' s' else None
  | String _ _, EmptyString => None
  end.

Fixpoint last_char (s : string) : option ascii :=
  match s with
  | EmptyString => None
  | String c EmptyString => Some c
  | String _ s' => last_char s'
  end.

(** An absolute https URL: the scheme, two slashes, and a host that is not
    empty and does not open with a further slash. *)
Definition absolute_https (u : string) : bool :=
  match strip_prefix "https://" u with
  | Some (String c _) => negb (Ascii.eqb c "/")
  | _ => false
  end.

Definition trailing_slash (u : string) : bool :=
  match last_char u with
  | Some c => Ascii.eqb c "/"
  | None => false
  end.

Definition between (lo hi : ascii) (c : ascii) : bool :=
  ((nat_of_ascii lo <=? nat_of_ascii c) && (nat_of_ascii c <=? nat_of_ascii hi))%nat.

Definition hex_digit (c : ascii) : bool :=
  between "0" "9" c || between "a" "f" c || between "A" "F" c.

End Text.

(** ** A fragment of JavaScript large enough for a CommonJS data module *)

Module JS.

(** Expressions and statements.  [EGlobal x] reads a free identifier of the
    ambient scope, [SGlobalSet] writes one; [SExports], [SExportsSet] and
    [SExportsDelete] are the three ways a module body can write its
    [module.exports]. *)
Inductive expr : Type :=
| EStr (s : string)
| ENum (n : Z)
| EBool (b : bool)
| EArr (es : list expr)
| EObj (props : list (string * expr))
| EGlobal (x : string)
| ECond (c t e : expr)
| EFun (params : list string) (body : list stmt)
| ECall (f : expr) (args : list expr)
with stmt : Type :=
| SExports (e : expr)                    (* module.exports = e        *)
| SExportsSet (k : string) (e : expr)    (* module.exports.k = e      *)
| SExportsDelete (k : string)            (* delete module.exports.k   *)
| SGlobalSet (x : string) (e : expr)     (* x = e                     *)
| SExpr (e : expr)                       (* e;                        *)
| SIf (c : expr) (t f : list stmt)       (* if (c) { t } else { f }   *)
| SWhile (c : expr) (body : list stmt).  (* while (c) { body }        *)

(** Run-time values.  An object is a finite map from property names to
    values: [o !! k = None] is the lookup that JavaScript answers with
    [undefined].  A function value keeps its parameters and body. *)
Inductive value : Type :=
| VUndef
| VStr (s : string)
| VNum (n : Z)
| VBool (b : bool)
| VArr (vs : list value)
| VObj (o : gmap string value)
| VFun (params : list string) (body : list stmt).

Definition program : Type := list stmt.

(** The state a module body runs in: the ambient globals and the module's
    own [module.exports]. *)
Record world : Type := World {
  globals : gmap string value;
  exports : value
}.

(** JavaScript's ToBoolean. *)
Definition truthy (v : value) : bool :=
  match v with
  | VUndef => false
  | VStr s => negb (String.eqb s "")
  | VNum n => negb (Z.eqb n 0)
  | VBool b => b
  | VArr _ | VObj _ | VFun _ _ => true
  end.

(** Evaluation of an expression against the globals.  [None] is an abrupt
    completion: a [ReferenceError] for an unbound identifier, or a call,
    which this evaluator does not run. *)
Fixpoint eval (g : gmap string value) (e : expr) : option value :=
  match e with
  | EStr s => Some (VStr s)
  | ENum n => Some (VNum n)
  | EBool b => Some (VBool b)
  | EArr es =>
      let fix elems (es : list expr) : option (list value) :=
        match es with
        | [] => Some []
        | e :: es' =>
            match eval g e with
            | Some v =>
                match elems es' with
                | Some vs => Some (v :: vs)
                | None => None
                end
            | None => None
            end
        end in
      match elems es with
      | Some vs => Some (VArr vs)
      | None => None
      end
  | EObj props =>
      let fix fields (ps : list (string * expr)) (acc : gmap string value)
          : option (gmap string value) :=
        match ps with
        | [] => Some acc
        | (k, e) :: ps' =>
            match eval g e with
            | Some v => fields ps' (<[k:=v]> acc)
            | None => None
            end
        end in
      match fields props ∅ with
      | Some o => Some (VObj o)
      | None => None
      end
  | EGlobal x => g !! x
  | ECond c t e =>
      match eval g c with
      | Some v => if truthy v then eval g t else eval g e
      | None => None
      end
  | EFun params body => Some (VFun params body)
  | ECall _ _ => None
  end.

(** The property loop of an object literal, as a function of its own: later
    properties overwrite earlier ones of the same name. *)
Fixpoint eval_fields (g : gmap string value) (ps : list (string * expr))
    (acc : gmap string value) : option (gmap string value) :=
  match ps with
  | [] => Some acc
  | (k, e) :: ps' =>
      match eval g e with
      | Some v => eval_fields g ps' (<[k:=v]> acc)
      | None => None
      end
  end.

(** Execution of statements.  A property write or a [delete] needs
    [module.exports] to hold an object; loops are not run. *)
Fixpoint exec (w : world) (s : stmt) : option world :=
  match s with
  | SExports e =>
      match eval (globals w) e with
      | Some v => Some (World (globals w) v)
      | None => None
      end
  | SExportsSet k e =>
      match eval (globals w) e, exports w with
      | Some v, VObj o => Some (World (globals w) (VObj (<[k:=v]> o)))
      | _, _ => None
      end
  | SExportsDelete k =>
      match exports w with
      | VObj o => Some (World (globals w) (VObj (delete k o)))
      | _ => None
      end
  | SGlobalSet x e =>
      match eval (globals w) e with
      | Some v => Some (World (<[x:=v]> (globals w)) (exports w))
      | None => None
      end
  | SExpr e =>
      match eval (globals w) e with
      | Some _ => Some w
      | None => None
      end
  | SIf c t f =>
      let fix block (w : world) (ss : list stmt) : option world :=
        match ss with
        | [] => Some w
        | s :: ss' =>
            match exec w s with
            | Some w' => block w' ss'
            | None => None
            end
        end in
      match eval (globals w) c with
      | Some v => if truthy v then block w t else block w f
      | None => None
      end
  | SWhile _ _ => None
  end.

(** The worlds a program passes through, one after each statement. *)
Fixpoint trace (w : world) (p : program) : option (list world) :=
  match p with
  | [] => Some []
  | s :: p' =>
      match exec w s with
      | Some w' =>
          match trace w' p' with
          | Some ws => Some (w' :: ws)
          | None => None
          end
      | None => None
      end
  end.

(** Running a whole program. *)
Fixpoint run (w : world) (p : program) : option world :=
  match p with
  | [] => Some w
  | s :: p' =>
      match exec w s with
      | Some w' => run w' p'
      | None => None
      end
  end.

(** Node hands a module body an empty object as its [module.exports]. *)
Definition fresh (g : gmap string value) : world := World g (VObj ∅).

(** What [require] returns for a module: its exports after the body ran. *)
Definition load (g : gmap string value) (p : program) : option value :=
  match run (fresh g) p with
  | Some w => Some (exports w)
  | None => None
  end.

(** Property lookup on a value, own properties only. *)
Definition get (v : value) (k : string) : option value :=
  match v with
  | VObj o => o !! k
  | _ => None
  end.

(** *** Syntactic classes *)

(** A literal: a constant, or an array or object literal of literals. *)
Fixpoint literal (e : expr) : bool :=
  match e with
  | EStr _ | ENum _ | EBool _ => true
  | EArr es => forallb literal es
  | EObj props => forallb (fun p => literal (snd p)) props
  | EGlobal _ | ECond _ _ _ | EFun _ _ | ECall _ _ => false
  end.

(** Functions, calls, branches and loops, anywhere in an expression or a
    statement. *)
Fixpoint expr_has_logic (e : expr) : bool :=
  match e with
  | EStr _ | ENum _ | EBool _ | EGlobal _ => false
  | EArr es => existsb expr_has_logic es
  | EObj props => existsb (fun p => expr_has_logic (snd p)) props
  | ECond _ _ _ | EFun _ _ | ECall _ _ => true
  end.

Definition stmt_has_logic (s : stmt) : bool :=
  match s with
  | SExports e | SExportsSet _ e | SGlobalSet _ e | SExpr e => expr_has_logic e
  | SExportsDelete _ => false
  | SIf _ _ _ | SWhile _ _ => true
  end.

(** Statements that write to [module.exports], at any depth. *)
Fixpoint writes_exports (s : stmt) : bool :=
  match s with
  | SExports _ | SExportsSet _ _ | SExportsDelete _ => true
  | SGlobalSet _ _ | SExpr _ => false
  | SIf _ t f => existsb writes_exports t || existsb writes_exports f
  | SWhile _ body => existsb writes_exports body
  end.

(** Statements that write a global, at any depth. *)
Fixpoint writes_globals (s : stmt) : bool :=
  match s with
  | SGlobalSet _ _ => true
  | SExports _ | SExportsSet _ _ | SExportsDelete _ | SExpr _ => false
  | SIf _ t f => existsb writes_globals t || existsb writes_globals f
  | SWhile _ body => existsb writes_globals body
  end.

End JS.

(** ** [config/index.js] *)

Module Config.
Import JS.

(** The object literal on the right of [module.exports =], property by
    property in source order.  The three properties the file keeps only in
    comments ([siteFBAppID], [ogSiteName], [googleAnalyticsID]) are not part
    of the program. *)
Definition config_properties : list (string * expr) :=
  [
    ("pathPrefix", EStr "/");
    ("siteTitle", EStr "Code Words");
    ("siteTitleAlt", EStr "Code Words - Josh Branchaud");
    ("siteTitleManifest", EStr "Code Words");
    ("siteUrl", EStr "https://blog.joshbranchaud.com");
    ("siteLanguage", EStr "en");
    ("siteHeadline", EStr "Learning in public, writing it down");
    ("siteBanner", EStr "/social/banner.jpg");
    ("favicon", EStr "src/favicon.png");
    ("siteDescription",
       EStr "Learning in public, writing it down. A blog written by Josh Branchaud");
    ("author", EStr "Josh Branchaud");
    ("siteLogo", EStr "/social/logo.png");
    ("userTwitter", EStr "@jbrancha");
    ("ogLanguage", EStr "en_US");
    ("themeColor", EStr "#3498DB");
    ("backgroundColor", EStr "#2b2e3c")
  ].

Definition config_literal : expr := EObj config_properties.

(** The module body: one assignment and nothing else. *)
Definition config_module : program := [SExports config_literal].

(** The exported object, as loading the module in an empty scope gives it. *)
Definition config : value :=
  match load ∅ config_module with
  | Some v => v
  | None => VUndef
  end.

(** The property names the literal defines, in source order. *)
Definition config_keys : list string := map fst config_properties.

(** The fields the site generator is documented to read. *)
Definition recognized_fields : list string :=
  ["pathPrefix"; "siteTitle"; "siteUrl"; "siteDescription"; "author";
   "siteLogo"; "themeColor"; "backgroundColor"; "userTwitter"].

(** The optional fields the file leaves commented out. *)
Definition commented_out_fields : list string :=
  ["siteFBAppID"; "ogSiteName"; "googleAnalyticsID"].

End Config.

(** ** Object literals of string constants *)

Module Literal.
Import JS.



End Literal.

(** ** Front matter of the content documents *)

Module FrontMatter.
Import Text.

(** The double-quote character, and a string between two of them. *)
Definition dquote : ascii := ascii_of_nat 34.

Definition quoted (s : string) : string :=
  String dquote (s +:+ String dquote EmptyString).

(** The line that opens and closes a front-matter block. *)
Definition delimiter : string := "---".

(** A top-level entry holds a scalar or a block sequence of items. *)
Inductive field : Type :=
| Scalar (s : string)
| Items (xs : list string).

Definition metadata : Type := list (string * field).

Fixpoint drop_spaces (s : string) : string :=
  match s with
  | String c s' => if Ascii.eqb c " " then drop_spaces s' else s
  | EmptyString => s
  end.

(** The text before a closing double quote that ends the string. *)
Fixpoint close_quote (s : string) : option string :=
  match s with
  | EmptyString => None
  | String c EmptyString => if Ascii.eqb c dquote then Some EmptyString else None
  | String c s' =>
      match close_quote s' with
      | Some t => Some (String c t)
      | None => None
      end
  end.

(** A scalar as written: the text between double quotes when it is quoted,
    the text itself otherwise. *)
Definition scalar (s : string) : string :=
  match s with
  | String c s' =>
      if Ascii.eqb c dquote then
        match close_quote s' with
        | Some t => t
        | None => s
        end
      else s
  | EmptyString => s
  end.

(** [key: rest] split at its first colon. *)
Fixpoint split_colon (s : string) : option (string * string) :=
  match s with
  | EmptyString => None
  | String c s' =>
      if Ascii.eqb c ":" then Some (EmptyString, s')
      else
        match split_colon s' with
        | Some (k, r) => Some (String c k, r)
        | None => None
        end
  end.

(** A sequence item: optional indentation, a dash, a space, the item. *)
Definition item_of (line : string) : option string :=
  match strip_prefix "- " (drop_spaces line) with
  | Some x => Some (scalar (drop_spaces x))
  | None => None
  end.

(** A key line starts at the first column; after the colon comes nothing
    (a block sequence follows) or a space and a scalar. *)
Definition key_of (line : string) : option (string * string) :=
  match line with
  | EmptyString => None
  | String c _ =>
      if Ascii.eqb c " " then None
      else
        match split_colon line with
        | Some (k, EmptyString) => Some (k, EmptyString)
        | Some (k, String sp v) =>
            if Ascii.eqb sp " " then Some (k, drop_spaces v) else None
        | None => None
        end
  end.

(** The entries of a header, read from its last line to its first: the
    result carries the sequence items not yet claimed by a key line. *)
Fixpoint entries (ls : list string) : option (list string * metadata) :=
  match ls with
  | [] => Some ([], [])
  | l :: ls' =>
      match entries ls' with
      | None => None
      | Some (pending, es) =>
          match item_of l with
          | Some x => Some (x :: pending, es)
          | None =>
              match key_of l with
              | Some (k, EmptyString) => Some ([], (k, Items pending) :: es)
              | Some (k, v) =>
                  match pending with
                  | [] => Some ([], (k, Scalar (scalar v)) :: es)
                  | _ :: _ => None
                  end
              | None => None
              end
          end
      end
  end.

(** The lines up to the first delimiter line, and the lines after it. *)
Fixpoint split_block (ls : list string) : option (list string * list string) :=
  match ls with
  | [] => None
  | l :: ls' =>
      if String.eqb l delimiter then Some ([], ls')
      else
        match split_block ls' with
        | Some (hdr, body) => Some (l :: hdr, body)
        | None => None
        end
  end.

(** The front matter of a document given as its lines: the document must
    open with a delimiter line, and the block must close. *)
Definition front_matter (doc : list string) : option metadata :=
  match doc with
  | [] => None
  | l :: rest =>
      if String.eqb l delimiter then
        match split_block rest with
        | Some (hdr, _) =>
            match entries hdr with
            | Some ([], es) => Some es
            | _ => None
            end
        | None => None
        end
      else None
  end.

(** The first entry under a key. *)
Fixpoint field_of (fm : metadata) (k : string) : option field :=
  match fm with
  | [] => None
  | (k', v) :: fm' => if String.eqb k' k then Some v else field_of fm' k
  end.

(** *** Calendar dates *)

Definition digit (c : ascii) : option nat :=
  if between "0" "9" c then Some (nat_of_ascii c - nat_of_ascii "0") else None.

Fixpoint number (cs : list ascii) (acc : nat) : option nat :=
  match cs with
  | [] => Some acc
  | c :: cs' =>
      match digit c with
      | Some d => number cs' (10 * acc + d)
      | None => None
      end
  end.

(** [YYYY-MM-DD]: ten characters, digits around two hyphens. *)
Definition parse_date (s : string) : option (nat * nat * nat) :=
  match list_ascii_of_string s with
  | [y1; y2; y3; y4; h1; m1; m2; h2; d1; d2] =>
      if Ascii.eqb h1 "-" && Ascii.eqb h2 "-" then
        match number [y1; y2; y3; y4] 0, number [m1; m2] 0, number [d1; d2] 0 with
        | Some y, Some m, Some d => Some (y, m, d)
        | _, _, _ => None
        end
      else None
  | _ => None
  end.

Definition leap_year (y : nat) : bool :=
  ((y mod 4 =? 0) && (negb (y mod 100 =? 0) || (y mod 400 =? 0)))%nat.

Definition days_in_month (y m : nat) : nat :=
  match m with
  | 1 | 3 | 5 | 7 | 8 | 10 | 12 => 31
  | 4 | 6 | 9 | 11 => 30
  | 2 => if leap_year y then 29 else 28
  | _ => 0
  end.

Definition calendar_date (y m d : nat) : bool :=
  ((1 <=? m) && (m <=? 12) && (1 <=? d) && (d <=? days_in_month y m))%nat.

End FrontMatter.

(** ** The articles *)

Module Blog.
Import FrontMatter.

(** An article is stored by the lines its file opens with, through the line
    that closes the front matter; the prose after it is a parameter of the
    statements below. *)
Record document : Type := Document {
  source : string;
  head : list string
}.

Definition text (d : document) (body : list string) : list string :=
  head d ++ body.

(** The lines of the head between its first and its last line. *)
Definition header (d : document) : list string :=
  removelast (tail (head d)).

Definition ensure_column_relationships : document :=
  Document "blog/ensure-column-relationships-with-check-constraints/index.mdx"
    [ "---";
      "date: " +:+ quoted "2019-11-02";
      "title: " +:+ quoted "Enforce Column Relationships With Check Constraints";
      "categories:";
      "  - PostgreSQL";
      "---" ].

Definition migrating_data : document :=
  Document "blog/migrating-data-along-with-the-schema/index.mdx"
    [ "---";
      "date: " +:+ quoted "2019-05-22";
      "title: " +:+ quoted "Migrating Data along with the Schema";
      "categories:";
      "  - Rails";
      "  - PostgreSQL";
      "---" ].

(** This article is stored in the same file as the previous one, after it,
    from line 231 on. *)
Definition custom_hook_for_loading_state : document :=
  Document "blog/migrating-data-along-with-the-schema/index.mdx:231"
    [ "---";
      "date: " +:+ quoted "2019-06-08";
      "title: " +:+ quoted "A Custom Hook For Loading State";
      "categories:";
      "  - React";
      "  - Hooks";
      "---" ].

Definition react_loop_2019 : document :=
  Document "blog/react-loop-2019/index.mdx"
    [ "---";
      "date: " +:+ quoted "2019-06-21";
      "title: " +:+ quoted "An Incomplete Overview of React Loop 2019";
      "categories:";
      "  - React";
      "  - Conference";
      "---" ].

Definition formik_connected_components : document :=
  Document "unnamed/part_000"
    [ "---";
      "date: " +:+ quoted "2019-05-25";
      "title: " +:+ quoted "Formik Connected Components";
      "categories:";
      "  - React";
      "  - Formik";
      "  - JavaScript";
      "---" ].

Definition documents : list document :=
  [ ensure_column_relationships; migrating_data; custom_hook_for_loading_state;
    react_loop_2019; formik_connected_components ].

(** The topics the blog is said to cover. *)
Definition topics : list string := ["React"; "PostgreSQL"; "Rails"].

Definition covers_topic (categories : list string) : bool :=
  existsb (fun t => existsb (String.eqb t) categories) topics.

(** The metadata fields every article is to define. *)
Definition required_fields : list string := ["date"; "title"; "categories"].

End Blog.

(** ** The check constraint of the books table

    From the article on check constraints: the [books] table with its two
    nullable integer columns, the constraint
    [ensure_year_and_page_count_are_set], and the [insert] and [update]
    statements the article runs against the table. *)

Module CheckConstraint.

Local Open Scope Z_scope.

(** A row of [books].  [title] and [author] are [not null]; the two integer
    columns are nullable, [None] being SQL's NULL. *)
Record book : Type := Book {
  id : Z;
  title : string;
  author : string;
  publication_year : option Z;
  page_count : option Z
}.

(** [v is not null]. *)
Definition is_not_null (v : option Z) : bool :=
  match v with
  | Some _ => true
  | None => false
  end.

(** [b::integer]. *)
Definition to_integer (b : bool) : Z := if b then 1 else 0.

(** [(publication_year is not null)::integer +
     (page_count is not null)::integer]. *)
Definition set_columns (b : book) : Z :=
  to_integer (is_not_null (publication_year b)) +
  to_integer (is_not_null (page_count b)).

(** [check ((...) != 1)]. *)
Definition ensure_year_and_page_count_are_set (b : book) : bool :=
  negb (set_columns b =? 1).

(** The table: its rows and the next value of [books_id_seq]. *)
Record table : Type := Table {
  rows : list book;
  books_id_seq : Z
}.

Definition empty_table : table := Table [] 1.

Inductive error : Type :=
| UniqueViolation     (* books_pkey *)
| CheckViolation.     (* ensure_year_and_page_count_are_set *)

(** The statements of the article.  An update names the columns it sets:
    [None] leaves a column out of the [set] list, [Some v] sets it to [v]
    (to NULL when [v] is [None]). *)
Inductive statement : Type :=
| Insert (title author : string)
    (* insert into books (title, author) values (title, author) *)
| Update (year count : option (option Z)) (target : Z).
    (* update books set publication_year = year, page_count = count
       where id = target *)

Definition assign (new : option (option Z)) (old : option Z) : option Z :=
  match new with
  | Some v => v
  | None => old
  end.

Definition updated (year count : option (option Z)) (b : book) : book :=
  Book (id b) (title b) (author b)
       (assign year (publication_year b)) (assign count (page_count b)).

(** A statement either fails, leaving the rows as they were, or goes
    through.  The new version of every row a statement writes is checked;
    [nextval] is consumed by an insert whether it goes through or not. *)
Definition execute (s : statement) (t : table) : option error * table :=
  match s with
  | Insert ti au =>
      let b := Book (books_id_seq t) ti au None None in
      let seq' := books_id_seq t + 1 in
      if negb (ensure_year_and_page_count_are_set b) then
        (Some CheckViolation, Table (rows t) seq')
      else if existsb (fun r => id r =? id b) (rows t) then
        (Some UniqueViolation, Table (rows t) seq')
      else (None, Table (rows t ++ [b]) seq')
  | Update year count target =>
      let hit r := id r =? target in
      if forallb (fun r => negb (hit r) ||
                           ensure_year_and_page_count_are_set (updated year count r))
                 (rows t)
      then
        (None,
         Table (map (fun r => if hit r then updated year count r else r) (rows t))
               (books_id_seq t))
      else (Some CheckViolation, t)
  end.

(** A script: statements run one after the other, failures included. *)
Fixpoint execute_all (ss : list statement) (t : table) : table :=
  match ss with
  | [] => t
  | s :: ss' => execute_all ss' (snd (execute s t))
  end.

(** What the statements keep: every row respects the constraint, no two
    rows share an id, and every id was handed out by the sequence. *)
Definition consistent (t : table) : Prop :=
  Forall (λ r, ensure_year_and_page_count_are_set r = true) (rows t) ∧
  NoDup (map id (rows t)) ∧
  Forall (λ r, id r < books_id_seq t) (rows t).

End CheckConstraint.

(** ** The migration that moves [genre] from authors to books

    From the article on migrating data: the two versions of the migration's
    [up], run by ActiveRecord against the [authors] and [books] tables with
    the schema cache the article describes. *)

Module Migration.
Import Text.

(** A record is its columns by name; a column that is absent is NULL, and
    reads as [nil].  Timestamps are left out. *)
Abbreviation row := (gmap string string).

(** What the migration runs in: the two tables in primary-key order, the
    columns the [books] table has, the columns ActiveRecord's cached column
    information lists for [GenericBook], and what was printed. *)
Record state : Type := State {
  authors : list row;
  books : list row;
  books_columns : gset string;
  cached_columns : gset string;
  stdout : string
}.

Inductive exn : Type :=
| DuplicateColumn    (* add_column of a column the table has *)
| NoMethodError.     (* a method called on nil *)

Inductive result (A : Type) : Type :=
| Returned (a : A) (st : state)
| Raised (e : exn) (st : state).
Arguments Returned {A} a st.
Arguments Raised {A} e st.

Definition M (A : Type) : Type := state → result A.

Definition ret {A} (a : A) : M A := fun st => Returned a st.

Definition bind {A B} (m : M A) (k : A → M B) : M B :=
  fun st =>
    match m st with
    | Returned a st' => k a st'
    | Raised e st' => Raised e st'
    end.

Definition raise {A} (e : exn) : M A := fun st => Raised e st.

Declare Scope migration_scope.
Delimit Scope migration_scope with migration.
Notation "x <- m ;; k" := (bind m (fun x => k))
  (at level 100, m at next level, right associativity) : migration_scope.
Notation "m ;; k" := (bind m (fun _ => k))
  (at level 100, right associativity) : migration_scope.
Local Open Scope migration_scope.

Definition newline : string := String (ascii_of_nat 10) EmptyString.

(** [#{v}]: nil interpolates as the empty string. *)
Definition to_s (v : option string) : string :=
  match v with
  | Some s => s
  | None => EmptyString
  end.

(** [puts s] prints [s] and ends the line unless [s] already ends one. *)
Definition puts (s : string) : M unit :=
  fun st =>
    let line :=
      match last_char s with
      | Some c => if Ascii.eqb c (ascii_of_nat 10) then s else s +:+ newline
      | None => newline
      end in
    Returned tt (State (authors st) (books st) (books_columns st)
                       (cached_columns st) (stdout st +:+ line)).

(** [add_column :books, column, :string].  The rows read NULL in the new
    column; the cached column information is not touched. *)
Definition add_column (column : string) : M unit :=
  fun st =>
    if decide (column ∈ books_columns st) then Raised DuplicateColumn st
    else Returned tt (State (authors st) (books st)
                            ({[column]} ∪ books_columns st)
                            (cached_columns st) (stdout st)).

(** [GenericBook.reset_column_information]: the next use of the model reads
    the columns from the database. *)
Definition reset_column_information : M unit :=
  fun st =>
    Returned tt (State (authors st) (books st) (books_columns st)
                       (books_columns st) (stdout st)).

(** [GenericBook.find_by(author_id: id)]: the first book of that author, or
    nil. *)
Definition first_book (id : option string) (bs : list row) : option row :=
  List.find (fun b => bool_decide (b !! "author_id" = id)) bs.

Definition find_by_author_id (id : option string) : M (option row) :=
  fun st => Returned (first_book id (books st)) st.

(** A method of a record that may be nil. *)
Definition send (r : option row) (column : string) : M (option string) :=
  match r with
  | Some r => ret (r !! column)
  | None => raise NoMethodError
  end.

(** One attribute written to a row: a string, or NULL. *)
Definition write (column : string) (v : option string) (r : row) : row :=
  match v with
  | Some s => <[column:=s]> r
  | None => delete column r
  end.

(** The attributes of a hash that the cached column information knows;
    the others are dropped without a word. *)
Definition known (cached : gset string) (attrs : list (string * option string))
    : list (string * option string) :=
  filter (fun kv => kv.1 ∈ cached) attrs.

Definition assign_all (attrs : list (string * option string)) (r : row) : row :=
  foldl (fun r kv => write kv.1 kv.2 r) r attrs.

(** [book.update!(attrs)]: the known attributes are written to the rows
    with the book's primary key. *)
Definition update_bang (book : option row) (attrs : list (string * option string))
    : M unit :=
  match book with
  | None => raise NoMethodError
  | Some b =>
      fun st =>
        let attrs' := known (cached_columns st) attrs in
        Returned tt
          (State (authors st)
                 (map (fun r => if bool_decide (r !! "id" = b !! "id")
                                then assign_all attrs' r else r)
                      (books st))
                 (books_columns st) (cached_columns st) (stdout st))
  end.

(** [find_each]: the block is called on each record loaded, in primary-key
    order. *)
Fixpoint each (rs : list row) (block : row → M unit) : M unit :=
  match rs with
  | [] => ret tt
  | r :: rs' => block r ;; each rs' block
  end.

Definition GenericAuthor_find_each (block : row → M unit) : M unit :=
  fun st => each (authors st) block st.

Definition GenericBook_find_each (block : row → M unit) : M unit :=
  fun st => each (books st) block st.

(** The block of the first loop. *)
Definition move_genre (author : row) : M unit :=
  book <- find_by_author_id (author !! "id") ;;
  title <- send book "title" ;;
  puts ("Moving " +:+ to_s (author !! "genre") +:+ " from " +:+
        to_s (author !! "name") +:+ " to " +:+ to_s title) ;;
  update_bang book [("genre", author !! "genre")].

(** The block of the second loop. *)
Definition report_genre (book : row) : M unit :=
  puts ("The genre of " +:+ to_s (book !! "title") +:+ " is " +:+
        default "ø" (book !! "genre")).

Definition banner : string :=
  newline +:+ "### Genres have supposedly been migrated ###" +:+ newline +:+ newline.

(** The first version of [up]. *)
Definition up : M unit :=
  add_column "genre" ;;
  GenericAuthor_find_each move_genre ;;
  puts banner ;;
  GenericBook_find_each report_genre.

(** The updated version of [up]. *)
Definition up_reset : M unit :=
  add_column "genre" ;;
  reset_column_information ;;
  GenericAuthor_find_each move_genre ;;
  puts banner ;;
  GenericBook_find_each report_genre.

(** The bookshelf of the article's two runs.  The ids stand for the uuids,
    which the article does not show. *)
Definition bookshelf : state :=
  State
    [ {[ "id" := "a1"; "name" := "Octavia Butler"; "genre" := "science fiction" ]};
      {[ "id" := "a2"; "name" := "David Sedaris"; "genre" := "essay" ]};
      {[ "id" := "a3"; "name" := "Martin Fowler"; "genre" := "technical" ]} ]
    [ {[ "id" := "b1"; "title" := "Refactoring"; "author_id" := "a3" ]};
      {[ "id" := "b2"; "title" := "Fledgling"; "author_id" := "a1" ]};
      {[ "id" := "b3"; "title" := "Me Talk Pretty One Day"; "author_id" := "a2" ]} ]
    (list_to_set ["id"; "title"; "publication_year"; "created_at"; "updated_at";
                  "author_id"])
    (list_to_set ["id"; "title"; "publication_year"; "created_at"; "updated_at";
                  "author_id"])
    EmptyString.

(** What a run printed, whether it returned or raised. *)
Definition printed {A} (r : result A) : string :=
  match r with
  | Returned _ st => stdout st
  | Raised _ st => stdout st
  end.

(** The books after [book.update!(genre: genre)] under the cached columns
    [cached]. *)
Definition with_genre (cached : gset string) (genre : option string)
    (book : row) (bs : list row) : list row :=
  map (fun r => if bool_decide (r !! "id" = book !! "id")
                then assign_all (known cached [("genre", genre)]) r else r) bs.

(** Two versions of a table that differ in the [genre] column at most. *)
Definition same_but_genre (bs bs' : list row) : Prop :=
  Forall2 (fun r r' : row => delete "genre" r = delete "genre" r') bs bs'.

(** The bookshelf with a second book by its first author. *)
Definition bookshelf_with_kindred : state :=
  State (authors bookshelf)
        (books bookshelf ++
         [ {[ "id" := "b4"; "title" := "Kindred"; "author_id" := "a1" ]} ])%list
        (books_columns bookshelf) (cached_columns bookshelf) EmptyString.

(** Lines joined as a terminal shows them. *)
Definition unlines (ls : list string) : string :=
  foldr (fun l s => l +:+ newline +:+ s) EmptyString ls.

End Migration.

(** ** The loading-state pattern and the [useLoadingWrapper] hook

    From the article on a custom hook for loading state: the submit
    handlers of the three components, the hook, the handler the article
    calls more realistic, and what the components render. *)

Module LoadingState.
Import JS.

(** An error as the handlers use it: by its [message]. *)
Record error : Type := Error { message : string }.

(** How a promise settles, and how a callback completes: a callback that
    throws rejects the promise derived from it. *)
Inductive outcome (A : Type) : Type :=
| Fulfilled (a : A)
| Rejected (err : error).
Arguments Fulfilled {A} a.
Arguments Rejected {A} err.

(** A server response: [const { data } = resp]. *)
Record response : Type := Response { data : list value }.

(** The state setters a handler can call. *)
Inductive effect : Type :=
| SetLoading (isLoading : bool)
| SetData (someData : list value)
| SetError (msg : string).

(** A promise with the setter calls made on the way to it: it has settled,
    or a setter is called and it goes on, or it waits for the server to
    answer. *)
Inductive promise (A : Type) : Type :=
| Settled (o : outcome A)
| Effect (e : effect) (p : promise A)
| Await (k : outcome response → promise A).
Arguments Settled {A} o.
Arguments Effect {A} e p.
Arguments Await {A} k.

(** A callback: the setters it calls, and its return value or the error it
    throws. *)
Definition callback (A B : Type) : Type := A → list effect * outcome B.

Definition emit {A} (es : list effect) (p : promise A) : promise A :=
  foldr Effect p es.



(** [p.finally(f)]: [f] runs however [p] settles, and the result settles
    as [p] did unless [f] throws. *)
Fixpoint finally_ {A} (p : promise A) (f : callback unit unit) : promise A :=
  match p with
  | Settled o =>
      emit (fst (f tt))
           (Settled match snd (f tt) with
                    | Fulfilled _ => o
                    | Rejected err => Rejected err
                    end)
  | Effect e p' => Effect e (finally_ p' f)
  | Await k => Await (fun o => finally_ (k o) f)
  end.

(** [data.filter(filterFunc)] with a [filterFunc] that may throw. *)
Fixpoint filter_ (f : value → outcome bool) (xs : list value)
    : outcome (list value) :=
  match xs with
  | [] => Fulfilled []
  | x :: xs' =>
      match f x with
      | Rejected err => Rejected err
      | Fulfilled keep =>
          match filter_ f xs' with
          | Rejected err => Rejected err
          | Fulfilled ys => Fulfilled (if keep then x :: ys else ys)
          end
      end
  end.

(** [setLoading], [setData] and [setError] as the callbacks call them. *)
Definition setLoading (isLoading : bool) : list effect := [SetLoading isLoading].

(** [loadingWrapper] of [useLoadingWrapper]. *)
Definition loadingWrapper {A} (callback : unit → promise A) : promise A :=
  emit (setLoading true)
       (finally_ (callback tt) (fun _ => (setLoading false, Fulfilled tt))).

Section Handlers.

(** The API calls and the filter are defined outside the article. *)
Variable makeSuccessfulApiCall : unit → promise response.
Variable makeApiCall : unit → promise response.
Variable filterFunc : value → outcome bool.

(** [handleSubmit] of [LoadingStateExample] and of [HooksLoadingExample]:
    the pattern written out. *)
Definition handleSubmit_inline : promise response :=
  emit (setLoading true)
       (finally_ (makeSuccessfulApiCall tt)
                 (fun _ => (setLoading false, Fulfilled tt))).

(** [handleSubmit] of [LoadingWrapperExample]. *)
Definition handleSubmit_wrapped : promise response :=
  loadingWrapper makeSuccessfulApiCall.


End Handlers.

(** *** Running a promise *)

(** The setter calls made in order, and how the promise settled if it did,
    when the server gives the [answers] one after the other. *)
Fixpoint run {A} (p : promise A) (answers : list (outcome response))
    : list effect * option (outcome A) :=
  match p with
  | Settled o => ([], Some o)
  | Effect e p' => let (es, r) := run p' answers in (e :: es, r)
  | Await k =>
      match answers with
      | [] => ([], None)
      | o :: answers' => run (k o) answers'
      end
  end.

(** The [loading] state after setter calls. *)
Definition loading_after (es : list effect) (loading : bool) : bool :=
  foldl (fun l e => match e with SetLoading b => b | _ => l end) loading es.

(** A promise whose callbacks never call [setLoading]: the setter is local
    to the component or the hook. *)
Fixpoint quiet {A} (p : promise A) : Prop :=
  match p with
  | Settled _ => True
  | Effect e p' => (∀ b, e ≠ SetLoading b) ∧ quiet p'
  | Await k => ∀ o, quiet (k o)
  end.

(** *** A component on the page *)

(** The setter calls up to the point where the promise waits or has
    settled. *)
Fixpoint advance {A} (p : promise A) : list effect * promise A :=
  match p with
  | Effect e p' => let (es, q) := advance p' in (e :: es, q)
  | _ => ([], p)
  end.

Definition pending {A} (p : promise A) : bool :=
  match p with
  | Await _ => true
  | _ => false
  end.

(** The component: its [loading] state and the calls its handler has
    started. *)
Record page (A : Type) : Type := Page {
  loading : bool;
  calls : list (promise A)
}.
Arguments Page {A} loading calls.
Arguments loading {A} p.
Arguments calls {A} p.

Inductive event : Type :=
| Click                                       (* the button is clicked *)
| Answer (i : nat) (o : outcome response).    (* the server answers call i *)

Definition step {A} (handleSubmit : promise A) (pg : page A) (ev : event)
    : page A :=
  match ev with
  | Click =>
      let (es, p) := advance handleSubmit in
      Page (loading_after es (loading pg)) (calls pg ++ [p])
  | Answer i o =>
      match calls pg !! i with
      | Some (Await k) =>
          let (es, p) := advance (k o) in
          Page (loading_after es (loading pg)) (<[i:=p]> (calls pg))
      | _ => pg
      end
  end.

Definition after {A} (handleSubmit : promise A) (initialLoadingState : bool)
    (evs : list event) : page A :=
  foldl (step handleSubmit) (Page initialLoadingState []) evs.

(** The callback [loadingWrapper] hands to [finally]. *)
Definition reset : callback unit unit := fun _ => (setLoading false, Fulfilled tt).



(** *** What the components render *)






End LoadingState.

(** ** Facts about the JavaScript fragment *)

Module JSFacts.
Import JS.

Lemma eval_EObj g ps :
  eval g (EObj ps) =
  match eval_fields g ps ∅ with
  | Some o => Some (VObj o)
  | None => None
  end.
Proof.
  simpl. generalize (∅ : gmap string value).
  induction ps as [|[k e] ps IH]; intros acc; simpl; [done|].
  destruct (eval g e); [apply IH | done].
Qed.

(** A literal has a value, the same under all globals. *)
Lemma literal_value e :
  literal e = true → ∃ v, ∀ g, eval g e = Some v.
Proof.
  revert e. fix IH 1.
  intros [s|n|b|es|ps|x|c t e|params body|f args] Hlit; simpl in Hlit;
    try discriminate.
  - by exists (VStr s).
  - by exists (VNum n).
  - by exists (VBool b).
  - assert (∃ vs, ∀ g, eval g (EArr es) = Some (VArr vs)) as [vs Hvs].
    { simpl. induction es as [|e es IHes]; simpl in Hlit.
      - by exists [].
      - apply andb_prop in Hlit as [He Hes].
        destruct (IH e He) as [v Hv], (IHes Hes) as [vs Hvs].
        exists (v :: vs). intros g. rewrite Hv.
        specialize (Hvs g). simpl in Hvs.
        destruct ((fix elems (es0 : list expr) : option (list value) := _) es);
          by simplify_eq. }
    by exists (VArr vs).
  - assert (∀ acc, ∃ o, ∀ g, eval_fields g ps acc = Some o) as Hps.
    { induction ps as [|[k e] ps IHps]; intros acc; simpl in Hlit.
      - by exists acc.
      - apply andb_prop in Hlit as [He Hps].
        destruct (IH e He) as [v Hv], (IHps Hps (<[k:=v]> acc)) as [o Ho].
        exists o. intros g. simpl. by rewrite Hv. }
    destruct (Hps ∅) as [o Ho]. exists (VObj o). intros g.
    by rewrite eval_EObj, Ho.
Qed.

(** The block of a branch runs like a program. *)
Lemma exec_SIf w c t f :
  exec w (SIf c t f) =
  match eval (globals w) c with
  | Some v => if truthy v then run w t else run w f
  | None => None
  end.
Proof.
  assert (∀ ss w0,
    (fix block (w1 : world) (ss0 : list stmt) : option world :=
       match ss0 with
       | [] => Some w1
       | s :: ss' =>
           match exec w1 s with
           | Some w' => block w' ss'
           | None => None
           end
       end) w0 ss = run w0 ss) as Hblock.
  { induction ss as [|s ss IH]; intros w0; simpl; [done|].
    destruct (exec w0 s); [apply IH | done]. }
  simpl. destruct (eval (globals w) c) as [v|]; [|done].
  by rewrite !Hblock.
Qed.

Ltac exec_cases H :=
  repeat match type of H with
  | match ?x with _ => _ end = Some _ => destruct x eqn:?; try discriminate
  | (if ?b then _ else _) = Some _ => destruct b eqn:?
  | Some _ = Some _ => injection H as <-
  end.

(** The two branches of an [SIf], by induction on the block with the
    statement-level hypothesis [IH] of the enclosing [fix]. *)
Ltac block_frame IH ss Hw Hr :=
  let s := fresh "s" in
  let IHss := fresh "IHss" in
  let Hs := fresh "Hs" in
  let w1 := fresh "w1" in
  let Hw1 := fresh "Hw1" in
  induction ss as [|s ss IHss]; simpl; intros ? ? Hw Hr;
  [ by injection Hr as <-
  | apply orb_false_elim in Hw as [Hs Hw];
    destruct (exec _ s) as [w1|] eqn:Hw1; [|done];
    rewrite (IHss _ _ Hw Hr); by apply (IH s) ].

(** A statement with no write to a global leaves the globals as they are. *)
Lemma exec_keeps_globals s :
  ∀ w w', writes_globals s = false → exec w s = Some w' → globals w' = globals w.
Proof.
  revert s. fix IH 1.
  intros [e|k e|k|x e|e|c t f|c body] w w' Hw He; try discriminate;
    try (simpl in He; by exec_cases He).
  rewrite exec_SIf in He. simpl in Hw.
  apply orb_false_elim in Hw as [Ht Hf].
  destruct (eval (globals w) c) as [v|]; [|done].
  destruct (truthy v).
  - revert w w' Ht He. block_frame IH t Ht He.
  - revert w w' Hf He. block_frame IH f Hf He.
Qed.

(** A statement with no write to [module.exports] leaves it as it is. *)
Lemma exec_keeps_exports s :
  ∀ w w', writes_exports s = false → exec w s = Some w' → exports w' = exports w.
Proof.
  revert s. fix IH 1.
  intros [e|k e|k|x e|e|c t f|c body] w w' Hw He; try discriminate;
    try (simpl in He; by exec_cases He).
  rewrite exec_SIf in He. simpl in Hw.
  apply orb_false_elim in Hw as [Ht Hf].
  destruct (eval (globals w) c) as [v|]; [|done].
  destruct (truthy v).
  - revert w w' Ht He. block_frame IH t Ht He.
  - revert w w' Hf He. block_frame IH f Hf He.
Qed.

Lemma run_keeps_globals p :
  ∀ w w', existsb writes_globals p = false → run w p = Some w' →
          globals w' = globals w.
Proof.
  induction p as [|s p IH]; simpl; intros w w' Hw Hr.
  - by injection Hr as <-.
  - apply orb_false_elim in Hw as [Hs Hw].
    destruct (exec w s) as [w1|] eqn:Hw1; [|done].
    rewrite (IH _ _ Hw Hr). by apply (exec_keeps_globals s).
Qed.

(** Through a program with no write to [module.exports], every world of the
    trace holds the exports of the world the program started in. *)
Lemma trace_keeps_exports p :
  ∀ w ws, existsb writes_exports p = false → trace w p = Some ws →
          Forall (λ w', exports w' = exports w) ws.
Proof.
  induction p as [|s p IH]; simpl; intros w ws Hw Ht.
  - injection Ht as <-. constructor.
  - apply orb_false_elim in Hw as [Hs Hw].
    destruct (exec w s) as [w1|] eqn:Hw1; [|done].
    destruct (trace w1 p) as [ws1|] eqn:Hws1; [|done].
    injection Ht as <-.
    pose proof (exec_keeps_exports s _ _ Hs Hw1) as H1.
    constructor; [done|]. rewrite <- H1. by apply IH.
Qed.

(** A program that opens by assigning [module.exports] and never writes it
    again: every world of its trace holds the assigned value. *)
Lemma trace_after_construction e rest w v ws :
  eval (globals w) e = Some v →
  existsb writes_exports rest = false →
  trace w (SExports e :: rest) = Some ws →
  ws ≠ [] ∧ Forall (λ w', exports w' = v) ws.
Proof.
  intros He Hrest Ht. simpl in Ht. rewrite He in Ht.
  destruct (trace _ rest) as [ws'|] eqn:Hws'; [|done].
  injection Ht as <-. split; [done|].
  constructor; [done|]. by apply (trace_keeps_exports rest _ _ Hrest Hws').
Qed.

(** The trace and the run of a program agree: the run ends in the last
    world of the trace. *)
Lemma run_trace p :
  ∀ w, run w p = match trace w p with
                 | Some ws => Some (List.last ws w)
                 | None => None
                 end.
Proof.
  induction p as [|s p IH]; simpl; intros w; [done|].
  destruct (exec w s) as [w1|]; [|done].
  rewrite IH. destruct (trace w1 p) as [[|w2 ws]|]; [done| |done].
  f_equal. generalize w2. clear.
  induction ws as [|w3 ws IHws]; intros w2; [done|]. apply (IHws w3).
Qed.

(** The fields of an object literal of string constants: the result binds
    the literal's keys, on top of [acc], to strings. *)
Lemma eval_fields_strings g ps :
  Forall (λ p, ∃ s, p.2 = EStr s) ps →
  ∀ acc, ∃ o, eval_fields g ps acc = Some o ∧
    ∀ k, o !! k = acc !! k ∨ ∃ s, o !! k = Some (VStr s).
Proof.
  induction 1 as [|[k e] ps [s Hs] _ IH]; intros acc; simpl in *.
  - exists acc. auto.
  - subst e. simpl. destruct (IH (<[k:=VStr s]> acc)) as (o & Ho & Hk).
    exists o. split; [done|]. intros k'. destruct (Hk k') as [Heq|Hstr]; [|by right].
    rewrite Heq. destruct (decide (k = k')) as [->|Hne].
    + right. exists s. by rewrite lookup_insert_eq.
    + left. by rewrite lookup_insert_ne.
Qed.

(** The keys an object literal binds. *)
Lemma eval_fields_dom g ps :
  ∀ acc o, eval_fields g ps acc = Some o →
           dom o = dom acc ∪ list_to_set (map fst ps).
Proof.
  induction ps as [|[k e] ps IH]; intros acc o Ho; simpl in *.
  - injection Ho as <-. set_solver.
  - destruct (eval g e) as [v|]; [|done].
    rewrite (IH _ _ Ho), dom_insert_L. set_solver.
Qed.

End JSFacts.

(** ** The configuration module *)

Module ConfigFacts.
Import Text JS JSFacts Config.

Lemma run_exports_literal w e v :
  eval (globals w) e = Some v → run w [SExports e] = Some (World (globals w) v).
Proof. intros He. simpl. by rewrite He. Qed.

Lemma trace_exports_literal w e v :
  eval (globals w) e = Some v →
  trace w [SExports e] = Some [World (globals w) v].
Proof. intros He. simpl. by rewrite He. Qed.

Lemma config_properties_strings :
  Forall (λ p : string * expr, ∃ s, p.2 = EStr s) config_properties.
Proof. repeat constructor; by eexists. Qed.

(** The literal evaluates to [config] whatever the globals are, and
    [config] is the object its property loop builds. *)
Lemma config_value :
  ∃ o, config = VObj o ∧
       eval_fields ∅ config_properties ∅ = Some o ∧
       ∀ g, eval g config_literal = Some config.
Proof.
  destruct (literal_value config_literal eq_refl) as [v Hv].
  assert (config = v) as Hc.
  { unfold config, load, config_module.
    by rewrite (run_exports_literal (fresh ∅) _ v (Hv _)). }
  destruct (eval_fields_strings ∅ config_properties
              config_properties_strings ∅) as (o & Ho & _).
  exists o. split; [|split; [done | by rewrite Hc]].
  pose proof (Hv ∅) as H0. unfold config_literal in H0.
  rewrite eval_EObj, Ho in H0. by simplify_eq.
Qed.

Ltac lookup_config := vm_compute; reflexivity.

(** The keys of [config] are the keys of the literal, no more and no less. *)
Lemma config_lookup_none k : get config k = None ↔ k ∉ config_keys.
Proof.
  destruct config_value as (o & -> & Ho & _). simpl.
  apply eval_fields_dom in Ho. rewrite <- not_elem_of_dom, Ho.
  unfold config_keys. set_solver.
Qed.

(** The fragment can tell a mutated object from [config]: a property write
    after the assignment shows in the exports, a read of a global makes the
    result depend on the scope, and a write to a global shows in the scope. *)
Example property_write_is_seen :
  match run (fresh ∅) (config_module ++ [SExportsSet "siteTitle" (EStr "Other")])%list with
  | Some w => get (exports w) "siteTitle"
  | None => None
  end = Some (VStr "Other").
Proof. lookup_config. Qed.

Example delete_is_seen :
  match run (fresh ∅) (config_module ++ [SExportsDelete "author"])%list with
  | Some w => get (exports w) "author"
  | None => None
  end = None.
Proof. lookup_config. Qed.

Example global_read_depends_on_scope :
  load {["title" := VStr "a"]} [SExports (EObj [("siteTitle", EGlobal "title")])] ≠
  load {["title" := VStr "b"]} [SExports (EObj [("siteTitle", EGlobal "title")])].
Proof. vm_compute. discriminate. Qed.

Example global_write_is_seen :
  match run (fresh ∅) [SGlobalSet "loaded" (EBool true)] with
  | Some w => globals w !! "loaded"
  | None => None
  end = Some (VBool true).
Proof. lookup_config. Qed.

(** C2. Every value the exported configuration object holds is a string:
    whatever key a lookup finds, the value found is a [VStr], hence not a
    number, a boolean, an array, an object or a function. *)
Theorem config_values_are_strings (k : string) (v : value) :
  get config k = Some v → ∃ s, v = VStr s.
Proof.
  destruct config_value as (o & -> & Ho & _). simpl. intros Hk.
  destruct (eval_fields_strings ∅ config_properties
              config_properties_strings ∅) as (o' & Ho' & Hstr).
  rewrite Ho in Ho'. injection Ho' as <-.
  destruct (Hstr k) as [Hempty|[s Hs]].
  - by rewrite Hk, lookup_empty in Hempty.
  - exists s. rewrite Hk in Hs. by injection Hs.
Qed.

Lemma config_values_are_strings_witness :
  get config "author" = Some (VStr "Josh Branchaud") ∧
  ∃ s, VStr "Josh Branchaud" = VStr s.
Proof.
  split; [lookup_config|].
  apply (config_values_are_strings "author" (VStr "Josh Branchaud")).
  lookup_config.
Defined.

(** C3. The exported object defines every recognized field: [pathPrefix],
    [siteTitle], [siteUrl], [siteDescription], [author], [siteLogo],
    [themeColor], [backgroundColor] and the social handle [userTwitter] are
    keys of the literal and a lookup of each finds a value. *)
Theorem config_defines_recognized_fields :
  Forall (λ k, k ∈ config_keys ∧ ∃ v, get config k = Some v) recognized_fields.
Proof.
  repeat constructor;
    first [ apply (bool_decide_unpack _); lookup_config
          | eexists; lookup_config ].
Qed.

(** C6. The configuration object is never mutated.  The module body is the
    assignment of the literal and after it no statement writes
    [module.exports]; in every world the body passes through once the object
    is constructed, the exports are [config], and every property of the
    literal holds the value the literal gives it. *)
Theorem config_never_mutated :
  (∃ rest, config_module = SExports config_literal :: rest ∧
           existsb writes_exports rest = false) ∧
  ∀ w0, ∃ ws, trace w0 config_module = Some ws ∧ ws ≠ [] ∧
    Forall (λ w, exports w = config ∧
                 Forall (λ p, get (exports w) p.1 = eval (globals w) p.2)
                        config_properties) ws.
Proof.
  split; [by exists []|]. intros w0.
  destruct config_value as (_ & _ & _ & Hv).
  exists [World (globals w0) config].
  pose proof (trace_exports_literal w0 _ _ (Hv _)) as Ht.
  split; [done|].
  destruct (trace_after_construction _ [] _ _ _ (Hv _) eq_refl Ht) as [Hne Hall].
  split; [done|].
  eapply Forall_impl; [exact Hall|]. intros w ->. split; [done|].
  repeat constructor; lookup_config.
Qed.

(** C7. Loading the configuration module is deterministic and free of side
    effects: the body has no function, call, branch or loop; run in any
    world it ends with the globals it started with and with the one
    constant object [config] as its exports; so every load returns
    [config]. *)
Theorem config_load_deterministic :
  existsb stmt_has_logic config_module = false ∧
  (∀ w, run w config_module = Some (World (globals w) config)) ∧
  (∀ g, load g config_module = Some config).
Proof.
  destruct config_value as (_ & _ & _ & Hv).
  split; [reflexivity|]. split.
  - intros w. apply run_exports_literal, Hv.
  - intros g. unfold load, config_module.
    by rewrite (run_exports_literal (fresh g) _ _ (Hv _)).
Qed.

Example trailing_slash_is_seen :
  trailing_slash "https://blog.joshbranchaud.com/" = true.
Proof. reflexivity. Qed.

Example plain_http_is_not_https :
  absolute_https "http://blog.joshbranchaud.com" = false.
Proof. reflexivity. Qed.

Example relative_path_is_not_absolute : absolute_https "/social/logo.png" = false.
Proof. reflexivity. Qed.

Example g_is_not_a_hex_digit : hex_digit "g" = false.
Proof. reflexivity. Qed.

(** C8. [siteUrl] is an absolute https URL with no trailing slash. *)
Theorem siteUrl_absolute_https_no_trailing_slash :
  ∃ u, get config "siteUrl" = Some (VStr u) ∧
       absolute_https u = true ∧ trailing_slash u = false.
Proof. eexists. repeat split; lookup_config. Qed.

(** C9. [themeColor] and [backgroundColor] are hex colours of seven
    characters: a [#] and exactly six hexadecimal digits. *)
Theorem theme_colors_are_hex :
  Forall (λ k, ∃ s digits,
            get config k = Some (VStr s) ∧
            s = String "#" digits ∧
            String.length s = 7 ∧
            String.length digits = 6 ∧
            Forall (λ c, hex_digit c = true) (list_ascii_of_string digits))
         ["themeColor"; "backgroundColor"].
Proof.
  repeat constructor; do 2 eexists;
    (split; [lookup_config|]); (split; [reflexivity|]);
    (split; [reflexivity|]); (split; [reflexivity|]);
    repeat constructor.
Qed.

(** C10. The optional fields [siteFBAppID], [ogSiteName] and
    [googleAnalyticsID] are not keys of the exported object and a lookup of
    each finds nothing, while a lookup of each key the literal defines finds
    a string. *)
Theorem config_optional_fields_absent :
  Forall (λ k, (k ∉ config_keys) ∧ get config k = None) commented_out_fields ∧
  Forall (λ k, ∃ s, get config k = Some (VStr s)) config_keys.
Proof.
  split.
  - repeat constructor;
      first [ apply (bool_decide_unpack _); lookup_config | lookup_config ].
  - repeat constructor; eexists; lookup_config.
Qed.

End ConfigFacts.

(** ** The articles' front matter *)

Module BlogFacts.
Import Text FrontMatter Blog.

(** The reader stops at the closing delimiter: what it returns is decided
    by the header alone. *)
Lemma split_block_app hdr body :
  delimiter ∉ hdr → split_block (hdr ++ delimiter :: body) = Some (hdr, body).
Proof.
  induction hdr as [|l hdr IH]; intros Hnot; simpl; [done|].
  apply not_elem_of_cons in Hnot as [Hl Hhdr].
  destruct (String.eqb_spec l delimiter) as [->|_]; [done|].
  by rewrite (IH Hhdr).
Qed.

Lemma front_matter_app hdr body :
  delimiter ∉ hdr →
  front_matter (delimiter :: hdr ++ delimiter :: body) =
  match entries hdr with
  | Some ([], es) => Some es
  | _ => None
  end.
Proof. intros Hnot. simpl. by rewrite (split_block_app _ _ Hnot). Qed.

Lemma front_matter_body hdr body body' :
  delimiter ∉ hdr →
  front_matter (delimiter :: hdr ++ delimiter :: body) =
  front_matter (delimiter :: hdr ++ delimiter :: body').
Proof. intros Hnot. by rewrite !front_matter_app. Qed.

Lemma covers_topic_spec categories :
  covers_topic categories = true ↔ ∃ t, t ∈ topics ∧ t ∈ categories.
Proof.
  unfold covers_topic. rewrite existsb_exists. split.
  - intros (t & Ht & Hc). apply existsb_exists in Hc as (c & Hc & Heq).
    apply String.eqb_eq in Heq as ->.
    exists c. by rewrite <- !list_elem_of_In in *.
  - intros (t & Ht & Hc). exists t. rewrite <- list_elem_of_In. split; [done|].
    apply existsb_exists. exists t. rewrite <- list_elem_of_In.
    split; [done | apply String.eqb_refl].
Qed.

(** The reader and the date check do reject: a document that does not open
    with the delimiter, a header entry that is not [key: value], a day its
    month does not have, a month out of range, a date with a missing digit. *)
Example front_matter_needs_opening :
  front_matter ["date: 2019-11-02"; "---"; "prose"] = None.
Proof. reflexivity. Qed.

Example front_matter_needs_closing :
  front_matter ["---"; "date: 2019-11-02"; "prose"] = None.
Proof. reflexivity. Qed.

Example front_matter_missing_categories :
  match front_matter ["---"; "date: 2019-11-02"; "title: T"; "---"] with
  | Some fm => field_of fm "categories"
  | None => Some (Items [])
  end = None.
Proof. reflexivity. Qed.

Example no_february_29_in_2019 :
  parse_date "2019-02-29" = Some (2019, 2, 29) ∧ calendar_date 2019 2 29 = false.
Proof. split; vm_compute; reflexivity. Qed.

Example february_29_in_2020 : calendar_date 2020 2 29 = true.
Proof. vm_compute; reflexivity. Qed.

Example no_month_13 : calendar_date 2019 13 1 = false.
Proof. vm_compute; reflexivity. Qed.

Example date_needs_two_digit_month : parse_date "2019-5-22" = None.
Proof. reflexivity. Qed.

(** Each article of the list in turn. *)
Ltac each_document H :=
  repeat (apply elem_of_cons in H as [->|H]); [..|by apply elem_of_nil in H].

Ltac read := vm_compute; reflexivity.

(** C1. Every content document begins with a front-matter header that
    defines [date], [title] and [categories]: whatever prose follows its
    head, the document is a delimiter line, a header free of delimiter
    lines, a delimiter line and the prose, and the front matter read from it
    has an entry for each of the three fields. *)
Theorem documents_open_with_front_matter (d : document) (body : list string) :
  d ∈ documents →
  ∃ fm,
    text d body = delimiter :: header d ++ delimiter :: body ∧
    (delimiter ∉ header d) ∧
    front_matter (text d body) = Some fm ∧
    Forall (λ k, ∃ v, field_of fm k = Some v) required_fields.
Proof.
  intros Hd. each_document Hd; eexists;
    (split; [reflexivity|]);
    (split; [apply (bool_decide_unpack _); read|]);
    (split; [read|]);
    repeat constructor; eexists; read.
Qed.

Lemma documents_open_with_front_matter_witness :
  react_loop_2019 ∈ documents ∧
  ∃ fm,
    text react_loop_2019 [""; "Chicago has had a strong and growing React community"] =
      delimiter :: header react_loop_2019 ++
      delimiter :: [""; "Chicago has had a strong and growing React community"] ∧
    (delimiter ∉ header react_loop_2019) ∧
    front_matter
      (text react_loop_2019 [""; "Chicago has had a strong and growing React community"]) =
      Some fm ∧
    Forall (λ k, ∃ v, field_of fm k = Some v) required_fields.
Proof.
  assert (react_loop_2019 ∈ documents) as Hin.
  { do 3 apply list_elem_of_further. apply list_elem_of_here. }
  split; [exact Hin|].
  exact (documents_open_with_front_matter react_loop_2019 _ Hin).
Defined.

(** C4. Every content document has a valid date: the [date] entry of its
    front matter is a scalar of the form YYYY-MM-DD whose month is one of the
    twelve and whose day exists in that month of that year. *)
Theorem documents_have_valid_dates (d : document) (body : list string) :
  d ∈ documents →
  ∃ fm s y m dd,
    front_matter (text d body) = Some fm ∧
    field_of fm "date" = Some (Scalar s) ∧
    parse_date s = Some (y, m, dd) ∧
    calendar_date y m dd = true.
Proof.
  intros Hd. each_document Hd; do 5 eexists;
    (split; [read|]); (split; [read|]); (split; [read|]); read.
Qed.

Lemma documents_have_valid_dates_witness :
  ensure_column_relationships ∈ documents ∧
  ∃ fm s y m dd,
    front_matter (text ensure_column_relationships [""]) = Some fm ∧
    field_of fm "date" = Some (Scalar s) ∧
    parse_date s = Some (y, m, dd) ∧
    calendar_date y m dd = true.
Proof.
  assert (ensure_column_relationships ∈ documents) as Hin.
  { apply list_elem_of_here. }
  split; [exact Hin|].
  exact (documents_have_valid_dates ensure_column_relationships [""] Hin).
Defined.

(** C5. The [categories] entry of every content document is a list that is
    not empty and names at least one of React, PostgreSQL and Rails. *)
Theorem documents_cover_a_topic (d : document) (body : list string) :
  d ∈ documents →
  ∃ fm categories,
    front_matter (text d body) = Some fm ∧
    field_of fm "categories" = Some (Items categories) ∧
    categories ≠ [] ∧
    ∃ t, t ∈ topics ∧ t ∈ categories.
Proof.
  intros Hd. each_document Hd; do 2 eexists;
    (split; [read|]); (split; [read|]); (split; [discriminate|]);
    apply covers_topic_spec; read.
Qed.

Lemma documents_cover_a_topic_witness :
  formik_connected_components ∈ documents ∧
  ∃ fm categories,
    front_matter (text formik_connected_components [""]) = Some fm ∧
    field_of fm "categories" = Some (Items categories) ∧
    categories ≠ [] ∧
    ∃ t, t ∈ topics ∧ t ∈ categories.
Proof.
  assert (formik_connected_components ∈ documents) as Hin.
  { do 4 apply list_elem_of_further. apply list_elem_of_here. }
  split; [exact Hin|].
  exact (documents_cover_a_topic formik_connected_components [""] Hin).
Defined.

End BlogFacts.

(** ** The check constraint of the books table *)

Module CheckConstraintFacts.
Import CheckConstraint.

Local Open Scope Z_scope.

(** The breakdown table of the article: the sum is 0 when both columns are
    NULL, 1 when exactly one of them is set, 2 when both are set. *)
Theorem set_columns_breakdown (b : book) :
  (set_columns b = 0 ↔ publication_year b = None ∧ page_count b = None) ∧
  (set_columns b = 1 ↔
     (publication_year b = None ∧ page_count b ≠ None) ∨
     (publication_year b ≠ None ∧ page_count b = None)) ∧
  (set_columns b = 2 ↔ publication_year b ≠ None ∧ page_count b ≠ None).
Proof.
  unfold set_columns.
  destruct (publication_year b), (page_count b); simpl;
    repeat split; intros; try done; try lia; try tauto;
    intuition (try discriminate; try congruence; lia).
Qed.

(** The constraint is respected exactly when both columns are NULL or both
    are set. *)
Theorem check_both_or_neither (b : book) :
  ensure_year_and_page_count_are_set b = true ↔
  (publication_year b = None ↔ page_count b = None).
Proof.
  unfold ensure_year_and_page_count_are_set, set_columns.
  destruct (publication_year b), (page_count b); simpl;
    split; try done; intros H; try discriminate.
  - by destruct H as [_ H]; specialize (H eq_refl).
  - by destruct H as [H _]; specialize (H eq_refl).
Qed.

(** A failed statement changes no row. *)
Lemma execute_failure_keeps_rows s t e :
  fst (execute s t) = Some e → rows (snd (execute s t)) = rows t.
Proof.
  destruct s as [ti au|year count i]; simpl;
    repeat (case_match; simpl); done.
Qed.



Lemma execute_consistent s t : consistent t → consistent (snd (execute s t)).
Proof.
  intros (Hcheck & Hids & Hseq). destruct s as [ti au|year count i]; simpl.
  - case_match eqn:Hex; unfold consistent; simpl.
    + repeat split; [done..|]. eapply Forall_impl; [exact Hseq|]. simpl. lia.
    + repeat split.
      * apply Forall_app. split; [done|]. by repeat constructor.
      * rewrite map_app. simpl. apply NoDup_app. split; [done|]. split.
        -- intros x Hx Hx'. apply list_elem_of_singleton in Hx' as ->.
           apply list_elem_of_fmap in Hx as (r & Hr & Hin).
           rewrite Forall_forall in Hseq. specialize (Hseq r Hin). lia.
        -- apply NoDup_singleton.
      * apply Forall_app. split.
        -- eapply Forall_impl; [exact Hseq|]. simpl. lia.
        -- repeat constructor. simpl. lia.
  - case_match eqn:Hall; unfold consistent; simpl; [|done].
    rewrite forallb_forall in Hall. repeat split.
    + apply Forall_forall. intros r Hr.
      apply list_elem_of_fmap in Hr as (r0 & -> & Hr0).
      specialize (Hall r0 (proj1 (list_elem_of_In _ _) Hr0)).
      destruct (id r0 =? i); [done|].
      rewrite Forall_forall in Hcheck. by apply Hcheck.
    + rewrite map_map.
      rewrite (map_ext _ id); [done|]. intros r. by destruct (id r =? i).
    + apply Forall_forall. intros r Hr.
      apply list_elem_of_fmap in Hr as (r0 & -> & Hr0).
      rewrite Forall_forall in Hseq. specialize (Hseq r0 Hr0).
      by destruct (id r0 =? i).
Qed.

(** Whatever script ran against the empty table, failed statements
    included, no row has exactly one of the two columns set and no two rows
    share an id. *)
Theorem scripts_keep_the_constraint (ss : list statement) :
  let t := execute_all ss empty_table in
  (∀ r, r ∈ rows t → (publication_year r = None ↔ page_count r = None)) ∧
  NoDup (map id (rows t)).
Proof.
  assert (∀ t, consistent t → consistent (execute_all ss t)) as Hall.
  { induction ss as [|s ss IH]; intros t Ht; [done|].
    simpl. by apply IH, execute_consistent. }
  destruct (Hall empty_table) as (Hcheck & Hids & _).
  { repeat split; constructor. }
  simpl. split; [|done]. intros r Hr.
  apply check_both_or_neither. rewrite Forall_forall in Hcheck. by apply Hcheck.
Qed.


End CheckConstraintFacts.

(** ** The migration that moves [genre] from authors to books *)

Module MigrationFacts.
Import Text Migration.
Local Open Scope migration_scope.

(** The two runs the article shows, line for line. *)
Example first_run_prints :
  printed (up bookshelf) =
  unlines [ "Moving science fiction from Octavia Butler to Fledgling";
            "Moving essay from David Sedaris to Me Talk Pretty One Day";
            "Moving technical from Martin Fowler to Refactoring";
            "";
            "### Genres have supposedly been migrated ###";
            "";
            "The genre of Refactoring is ø";
            "The genre of Fledgling is ø";
            "The genre of Me Talk Pretty One Day is ø" ].
Proof. vm_compute. reflexivity. Qed.

Example second_run_prints :
  printed (up_reset bookshelf) =
  unlines [ "Moving science fiction from Octavia Butler to Fledgling";
            "Moving essay from David Sedaris to Me Talk Pretty One Day";
            "Moving technical from Martin Fowler to Refactoring";
            "";
            "### Genres have supposedly been migrated ###";
            "";
            "The genre of Refactoring is technical";
            "The genre of Fledgling is science fiction";
            "The genre of Me Talk Pretty One Day is essay" ].
Proof. vm_compute. reflexivity. Qed.

(** One turn of the first loop. *)
Lemma move_genre_step a st :
  match first_book (a !! "id") (books st) with
  | None => move_genre a st = Raised NoMethodError st
  | Some b =>
      ∃ out, move_genre a st =
        Returned tt (State (authors st)
                           (with_genre (cached_columns st) (a !! "genre") b (books st))
                           (books_columns st) (cached_columns st) out)
  end.
Proof.
  unfold move_genre, bind, find_by_author_id. simpl.
  destruct (first_book (a !! "id") (books st)) as [b|]; simpl; [|done].
  by eexists.
Qed.

(** *** Rows and tables that differ in [genre] only *)

Lemma write_same_but_genre g (r : row) :
  delete "genre" (write "genre" g r) = delete "genre" r.
Proof.
  destruct g as [s|]; simpl.
  - apply delete_insert_eq.
  - apply delete_delete_eq.
Qed.

Lemma write_genre_lookup g (r : row) : write "genre" g r !! "genre" = g.
Proof.
  destruct g as [s|]; simpl.
  - apply lookup_insert_eq.
  - apply lookup_delete_eq.
Qed.

Lemma known_genre cached g :
  known cached [("genre", g)] =
  if decide ("genre" ∈ cached) then [("genre", g)] else [].
Proof.
  unfold known. rewrite filter_cons, filter_nil. simpl.
  destruct (decide ("genre" ∈ cached)); done.
Qed.

Lemma other_column (r r' : row) k :
  k ≠ "genre" → delete "genre" r = delete "genre" r' → r !! k = r' !! k.
Proof.
  intros Hk Heq.
  rewrite <- (lookup_delete_ne r "genre" k), <- (lookup_delete_ne r' "genre" k)
    by done.
  by rewrite Heq.
Qed.

Lemma same_but_genre_refl bs : same_but_genre bs bs.
Proof. by apply Forall2_same_length_lookup_2; [|intros; simplify_eq]. Qed.

Lemma same_but_genre_trans bs1 bs2 bs3 :
  same_but_genre bs1 bs2 → same_but_genre bs2 bs3 → same_but_genre bs1 bs3.
Proof.
  unfold same_but_genre. intros H12. revert bs3.
  induction H12 as [|r1 r2 bs1 bs2 Hr _ IH]; intros bs3 H23;
    inversion H23; subst; constructor; [congruence | by apply IH].
Qed.

Lemma same_but_genre_sym bs bs' : same_but_genre bs bs' → same_but_genre bs' bs.
Proof. induction 1; constructor; done. Qed.

Lemma same_but_genre_column bs bs' k :
  k ≠ "genre" → same_but_genre bs bs' →
  map (λ r : row, r !! k) bs = map (λ r : row, r !! k) bs'.
Proof.
  intros Hk. induction 1 as [|r r' bs bs' Hr _ IH]; simpl; [done|].
  by rewrite IH, (other_column r r' k Hk Hr).
Qed.

Lemma with_genre_same_but_genre cached g b bs :
  same_but_genre bs (with_genre cached g b bs).
Proof.
  unfold with_genre. rewrite known_genre.
  induction bs as [|r bs IH]; simpl; constructor; [|done].
  destruct (bool_decide _); [|done].
  destruct (decide _); simpl; [|done].
  symmetry. apply write_same_but_genre.
Qed.


(** [find_by] sees the same book, up to its genre, in two such tables. *)
Lemma first_book_same_but_genre id bs bs' :
  same_but_genre bs bs' →
  match first_book id bs with
  | Some b => ∃ b', first_book id bs' = Some b' ∧
                    delete "genre" b = delete "genre" b'
  | None => first_book id bs' = None
  end.
Proof.
  unfold first_book.
  induction 1 as [|r r' bs bs' Hr _ IH]; simpl; [done|].
  rewrite <- (other_column r r' "author_id") by done.
  destruct (bool_decide _); [by exists r' | done].
Qed.

Lemma first_book_elem id bs b :
  first_book id bs = Some b → b ∈ bs ∧ b !! "author_id" = id.
Proof.
  unfold first_book. intros Hf. apply find_some in Hf as [Hin Hb].
  split; [by apply list_elem_of_In | by apply bool_decide_eq_true in Hb].
Qed.

(** Rows of a table with a primary key are told apart by their ids. *)
Lemma same_id_same_row (bs : list row) b b' :
  NoDup (map (λ r : row, r !! "id") bs) →
  b ∈ bs → b' ∈ bs → b !! "id" = b' !! "id" → b = b'.
Proof.
  intros Hnd Hb Hb' Hid.
  apply list_elem_of_lookup in Hb as [i Hi], Hb' as [j Hj].
  assert (i = j) as ->; [|congruence].
  eapply NoDup_lookup; [exact Hnd| |].
  - rewrite list_lookup_fmap, Hi. done.
  - rewrite list_lookup_fmap, Hj. simpl. by rewrite Hid.
Qed.

(** *** The two loops *)

(** The first loop returns when every author has a book, touching nothing
    but the genres of books and the output; it raises [NoMethodError] when
    an author has none. *)
Lemma each_move_genre rs :
  ∀ st,
    match each rs move_genre st with
    | Returned _ st' =>
        authors st' = authors st ∧
        books_columns st' = books_columns st ∧
        cached_columns st' = cached_columns st ∧
        same_but_genre (books st) (books st') ∧
        Forall (λ a : row, is_Some (first_book (a !! "id") (books st))) rs
    | Raised e st' =>
        e = NoMethodError ∧
        Exists (λ a : row, first_book (a !! "id") (books st) = None) rs
    end.
Proof.
  induction rs as [|a rs IH]; intros st; simpl.
  - repeat split; [apply same_but_genre_refl | constructor].
  - unfold bind. pose proof (move_genre_step a st) as Hstep.
    destruct (first_book (a !! "id") (books st)) as [b|] eqn:Hb.
    + destruct Hstep as [out ->].
      set (st1 := State _ _ _ _ _).
      pose proof (with_genre_same_but_genre
                    (cached_columns st) (a !! "genre") b (books st)) as Hsame.
      specialize (IH st1).
      destruct (each rs move_genre st1) as [[] st'|e st'].
      * destruct IH as (-> & -> & -> & Hbs & Hall). simpl.
        repeat split; [by eapply same_but_genre_trans|].
        constructor; [by rewrite Hb|].
        eapply Forall_impl; [exact Hall|]. simpl. intros a' [b' Hb'].
        pose proof (first_book_same_but_genre (a' !! "id") _ _ Hsame) as Hc.
        destruct (first_book (a' !! "id") (books st)); [done|].
        simpl in Hb'. congruence.
      * destruct IH as (-> & Hex). split; [done|].
        apply Exists_cons_tl. eapply Exists_impl; [exact Hex|].
        simpl. intros a' Ha'.
        pose proof (first_book_same_but_genre (a' !! "id") _ _ Hsame) as Hc.
        destruct (first_book (a' !! "id") (books st)) as [b0|]; [|done].
        destruct Hc as (b' & Hb' & _). simpl in Ha'. congruence.
    + rewrite Hstep. split; [done|]. by apply Exists_cons_hd.
Qed.


(** The second loop prints and does nothing else. *)
Lemma each_report_genre rs :
  ∀ st, ∃ out,
    each rs report_genre st =
    Returned tt (State (authors st) (books st) (books_columns st)
                       (cached_columns st) out).
Proof.
  induction rs as [|b rs IH]; intros st; simpl.
  - exists (stdout st). by destruct st.
  - unfold bind.
    assert (∃ out, report_genre b st =
              Returned tt (State (authors st) (books st) (books_columns st)
                                 (cached_columns st) out)) as [out1 ->].
    { unfold report_genre, puts. by eexists. }
    match goal with |- context [each rs report_genre ?st1] =>
      destruct (IH st1) as [out ->] end.
    by exists out.
Qed.

(** [up], and [up_reset], once the column is added: the first loop, then the
    banner and the report. *)
Lemma up_from_loop (cached : gset string) st :
  let st1 := State (authors st) (books st) ({["genre"]} ∪ books_columns st)
                   cached (stdout st) in
  match each (authors st) move_genre st1 with
  | Returned _ st2 =>
      ∃ out, (GenericAuthor_find_each move_genre ;; puts banner ;;
              GenericBook_find_each report_genre) st1 =
             Returned tt (State (authors st2) (books st2) (books_columns st2)
                                (cached_columns st2) out)
  | Raised e st2 =>
      (GenericAuthor_find_each move_genre ;; puts banner ;;
       GenericBook_find_each report_genre) st1 = Raised e st2
  end.
Proof.
  intros st1. unfold bind, GenericAuthor_find_each. simpl.
  destruct (each (authors st) move_genre st1) as [[] st2|e st2]; [|done].
  unfold GenericBook_find_each. simpl.
  match goal with |- context [each (books st2) report_genre ?st3] =>
    destruct (each_report_genre (books st2) st3) as [out ->] end.
  by exists out.
Qed.


Lemma up_reset_unfold st :
  "genre" ∉ books_columns st →
  up_reset st = (GenericAuthor_find_each move_genre ;; puts banner ;;
                 GenericBook_find_each report_genre)
                  (State (authors st) (books st) ({["genre"]} ∪ books_columns st)
                         ({["genre"]} ∪ books_columns st) (stdout st)).
Proof.
  intros Hnew. unfold up_reset at 1, bind at 1, add_column.
  by destruct (decide _).
Qed.

Lemma up_duplicate st :
  "genre" ∈ books_columns st →
  up st = Raised DuplicateColumn st ∧ up_reset st = Raised DuplicateColumn st.
Proof.
  intros Hdup. unfold up, up_reset, bind, add_column.
  by destruct (decide _).
Qed.

Lemma with_genre_fresh cached g b bs :
  "genre" ∈ cached →
  with_genre cached g b bs =
  map (λ r : row, if bool_decide (r !! "id" = b !! "id")
                  then write "genre" g r else r) bs.
Proof.
  intros Hfresh. unfold with_genre. rewrite known_genre.
  by destruct (decide _).
Qed.

(** With a cache that lists [genre], the first loop gives the first book of
    every author that author's genre and leaves every other book alone. *)
Lemma each_move_genre_fresh rs :
  ∀ st st',
    "genre" ∈ cached_columns st →
    NoDup (map (λ a : row, a !! "id") rs) →
    NoDup (map (λ b : row, b !! "id") (books st)) →
    each rs move_genre st = Returned tt st' →
    (∀ a b, a ∈ rs → first_book (a !! "id") (books st) = Some b →
       ∃ b', b' ∈ books st' ∧ b' !! "id" = b !! "id" ∧
             b' !! "genre" = a !! "genre") ∧
    (∀ b, b ∈ books st →
       (∀ a, a ∈ rs → first_book (a !! "id") (books st) ≠ Some b) →
       b ∈ books st').
Proof.
  induction rs as [|a rs IH]; intros st st' Hfresh Hauthors Hbooks; simpl.
  - intros [= <-]. split; [by intros a b Ha%elem_of_nil | done].
  - unfold bind. pose proof (move_genre_step a st) as Hstep.
    destruct (first_book (a !! "id") (books st)) as [ba|] eqn:Hba;
      [|by rewrite Hstep].
    destruct Hstep as [out ->]. set (st1 := State _ _ _ _ _). intros Heach.
    pose proof (with_genre_same_but_genre
                  (cached_columns st) (a !! "genre") ba (books st)) as Hsame.
    apply NoDup_cons in Hauthors as [Ha Hauthors].
    assert (NoDup (map (λ b : row, b !! "id") (books st1))) as Hbooks1.
    { simpl. by rewrite <- (same_but_genre_column _ _ "id" ltac:(done) Hsame). }
    destruct (IH st1 st' Hfresh Hauthors Hbooks1 Heach) as [IHfirst IHother].
    destruct (first_book_elem _ _ _ Hba) as [Hba_in Hba_author].
    (* how the first book of a later author is seen before and after *)
    assert (∀ a' b1, a' ∈ rs → first_book (a' !! "id") (books st1) = Some b1 →
              ∃ b0, first_book (a' !! "id") (books st) = Some b0 ∧
                    b0 !! "id" = b1 !! "id" ∧
                    b0 !! "author_id" = b1 !! "author_id") as Hback.
    { intros a' b1 _ Hb1.
      pose proof (first_book_same_but_genre (a' !! "id") _ _ Hsame) as Hc.
      destruct (first_book (a' !! "id") (books st)) as [b0|].
      - destruct Hc as (b1' & Hb1' & Heq). simpl in Hb1.
        assert (b1' = b1) as -> by congruence.
        exists b0. split; [done|]. split; by apply other_column.
      - simpl in Hb1. congruence. }
    split.
    + intros a0 b Ha0 Hb. apply elem_of_cons in Ha0 as [->|Ha0].
      * assert (b = ba) as -> by congruence.
        set (b1 := write "genre" (a !! "genre") ba).
        assert (b1 ∈ books st1) as Hb1.
        { simpl. rewrite with_genre_fresh by done.
          apply list_elem_of_fmap. exists ba. split; [|done].
          by rewrite bool_decide_eq_true_2. }
        exists b1. split; [|split].
        -- apply IHother; [done|]. intros a' Ha' Hfirst.
           destruct (Hback a' b1 Ha' Hfirst) as (b0 & Hb0 & _ & Hauthor).
           destruct (first_book_elem _ _ _ Hb0) as [_ Hb0_author].
           apply Ha. apply list_elem_of_fmap. exists a'. split; [|done].
           rewrite <- Hba_author, <- Hb0_author, Hauthor.
           unfold b1. symmetry. apply other_column; [done|].
           apply write_same_but_genre.
        -- unfold b1. apply other_column; [done|]. apply write_same_but_genre.
        -- apply write_genre_lookup.
      * pose proof (first_book_same_but_genre (a0 !! "id") _ _ Hsame) as Hc.
        rewrite Hb in Hc. destruct Hc as (b1 & Hb1 & Heq).
        destruct (IHfirst a0 b1 Ha0 Hb1) as (b' & Hb' & Hid & Hgenre).
        exists b'. split; [done|]. split; [|done].
        rewrite Hid. symmetry. by apply other_column.
    + intros b Hb Hnot.
      assert (b !! "id" ≠ ba !! "id") as Hne.
      { intros Hid. apply (Hnot a); [apply list_elem_of_here|].
        by rewrite (same_id_same_row _ _ _ Hbooks Hb Hba_in Hid). }
      apply IHother.
      * simpl. rewrite with_genre_fresh by done.
        apply list_elem_of_fmap. exists b. split; [|done].
        by rewrite bool_decide_eq_false_2.
      * intros a' Ha' Hfirst.
        assert (b ∈ books st1) as Hb1 by by apply first_book_elem in Hfirst as [? _].
        destruct (Hback a' b Ha' Hfirst) as (b0 & Hb0 & Hid0 & _).
        apply (Hnot a'); [by apply list_elem_of_further|].
        rewrite Hb0. f_equal.
        apply (same_id_same_row _ _ _ Hbooks); [|done..].
        by apply first_book_elem in Hb0 as [? _].
Qed.

(** A run that returns went through the first loop. *)
Lemma loop_returned (cached : gset string) st st' :
  (GenericAuthor_find_each move_genre ;; puts banner ;;
   GenericBook_find_each report_genre)
    (State (authors st) (books st) ({["genre"]} ∪ books_columns st)
           cached (stdout st)) = Returned tt st' →
  ∃ st2,
    each (authors st) move_genre
         (State (authors st) (books st) ({["genre"]} ∪ books_columns st)
                cached (stdout st)) = Returned tt st2 ∧
    authors st' = authors st ∧ books st' = books st2 ∧
    books_columns st' = {["genre"]} ∪ books_columns st ∧
    cached_columns st' = cached.
Proof.
  intros Hrun. pose proof (up_from_loop cached st) as Hloop. simpl in Hloop.
  pose proof (each_move_genre (authors st)
    (State (authors st) (books st) ({["genre"]} ∪ books_columns st)
           cached (stdout st))) as Hspec.
  destruct (each (authors st) move_genre _) as [[] st2|e st2].
  - destruct Hloop as [out Hout]. rewrite Hout in Hrun. injection Hrun as <-.
    destruct Hspec as (Ha & Hc & Hk & _). simpl in *.
    exists st2. by repeat split.
  - congruence.
Qed.

Lemma returned_new_column st st' :
  up st = Returned tt st' ∨ up_reset st = Returned tt st' →
  "genre" ∉ books_columns st.
Proof.
  intros Hrun Hdup. destruct (up_duplicate st Hdup) as [Hup Hreset].
  destruct Hrun; congruence.
Qed.




(** The updated version of [up], on tables with primary keys: when it
    returns, the first book of every author carries that author's genre. *)
Theorem up_reset_moves_genres (st st' : state) (a b : row) :
  NoDup (map (λ r : row, r !! "id") (authors st)) →
  NoDup (map (λ r : row, r !! "id") (books st)) →
  up_reset st = Returned tt st' →
  a ∈ authors st →
  first_book (a !! "id") (books st) = Some b →
  ∃ b', b' ∈ books st' ∧ b' !! "id" = b !! "id" ∧ b' !! "genre" = a !! "genre".
Proof.
  intros Hauthors Hbooks Hrun Ha Hb.
  pose proof (returned_new_column st st' (or_intror Hrun)) as Hnew.
  rewrite (up_reset_unfold st Hnew) in Hrun.
  apply loop_returned in Hrun as (st2 & Heach & _ & -> & _ & _).
  apply each_move_genre_fresh in Heach as [Hfirst _]; [|set_solver|done..].
  by apply Hfirst.
Qed.

Lemma up_reset_moves_genres_witness :
  ∃ st' b',
    up_reset bookshelf = Returned tt st' ∧
    b' ∈ books st' ∧ b' !! "id" = Some "b2" ∧
    b' !! "genre" = Some "science fiction".
Proof.
  pose (st' := match up_reset bookshelf with
               | Returned _ st' => st'
               | Raised _ st' => st'
               end).
  assert (up_reset bookshelf = Returned tt st') as Hrun.
  { vm_compute. reflexivity. }
  destruct (up_reset_moves_genres bookshelf st'
              {[ "id" := "a1"; "name" := "Octavia Butler";
                 "genre" := "science fiction" ]}
              {[ "id" := "b2"; "title" := "Fledgling"; "author_id" := "a1" ]})
    as (b' & Hin & Hid & Hgenre).
  - apply (bool_decide_unpack _). vm_compute. reflexivity.
  - apply (bool_decide_unpack _). vm_compute. reflexivity.
  - exact Hrun.
  - apply list_elem_of_here.
  - vm_compute. reflexivity.
  - exists st', b'. split; [exact Hrun|]. split; [exact Hin|].
    split; [rewrite Hid | rewrite Hgenre]; vm_compute; reflexivity.
Defined.

(** The updated version of [up] writes no other book: a book that is not
    the first book of any author, a second book of an author or a book
    without one, is after the run the row it was. *)
Theorem up_reset_leaves_other_books (st st' : state) (b : row) :
  NoDup (map (λ r : row, r !! "id") (authors st)) →
  NoDup (map (λ r : row, r !! "id") (books st)) →
  up_reset st = Returned tt st' →
  b ∈ books st →
  (∀ a, a ∈ authors st → first_book (a !! "id") (books st) ≠ Some b) →
  b ∈ books st'.
Proof.
  intros Hauthors Hbooks Hrun Hb Hnot.
  pose proof (returned_new_column st st' (or_intror Hrun)) as Hnew.
  rewrite (up_reset_unfold st Hnew) in Hrun.
  apply loop_returned in Hrun as (st2 & Heach & _ & -> & _ & _).
  apply each_move_genre_fresh in Heach as [_ Hother]; [|set_solver|done..].
  by apply Hother.
Qed.

Lemma up_reset_leaves_other_books_witness :
  ∃ st',
    up_reset bookshelf_with_kindred = Returned tt st' ∧
    ({[ "id" := "b4"; "title" := "Kindred"; "author_id" := "a1" ]} : row)
      ∈ books st'.
Proof.
  pose (st' := match up_reset bookshelf_with_kindred with
               | Returned _ st' => st'
               | Raised _ st' => st'
               end).
  assert (up_reset bookshelf_with_kindred = Returned tt st') as Hrun.
  { vm_compute. reflexivity. }
  exists st'. split; [exact Hrun|].
  apply (up_reset_leaves_other_books bookshelf_with_kindred).
  - apply (bool_decide_unpack _). vm_compute. reflexivity.
  - apply (bool_decide_unpack _). vm_compute. reflexivity.
  - exact Hrun.
  - do 3 apply list_elem_of_further. apply list_elem_of_here.
  - intros a Ha Hfirst. simpl in Ha.
    apply (f_equal (λ o : option row, o ≫= (.!! "id"))) in Hfirst.
    repeat (apply elem_of_cons in Ha as [->|Ha]); [..|by apply elem_of_nil in Ha];
      vm_compute in Hfirst; discriminate.
Defined.





End MigrationFacts.

(** ** The loading-state pattern and the [useLoadingWrapper] hook *)

Module LoadingStateFacts.
Import JS LoadingState.

Lemma run_emit {A} es (p : promise A) answers :
  run (emit es p) answers =
  (es ++ fst (run p answers), snd (run p answers))%list.
Proof.
  induction es as [|e es IH]; simpl.
  - by destruct (run p answers).
  - by rewrite IH.
Qed.



Lemma run_finally {A} (p : promise A) (f : callback unit unit) :
  ∀ answers,
    run (finally_ p f) answers =
    match run p answers with
    | (es, Some o) =>
        ((es ++ fst (f tt))%list,
         Some match snd (f tt) with
              | Fulfilled _ => o
              | Rejected err => Rejected err
              end)
    | (es, None) => (es, None)
    end.
Proof.
  induction p as [o|e p IH|k IH]; intros answers; simpl.
  - rewrite run_emit. simpl. by rewrite app_nil_r.
  - rewrite IH. by destruct (run p answers) as [es [o|]].
  - destruct answers as [|o answers]; [done | apply IH].
Qed.

(** [loadingWrapper] around any callback and under any answers of the
    server: [setLoading(true)] is the first setter call; if the callback's
    promise settles, [setLoading(false)] is the last one and the wrapper's
    promise settles the same way, fulfilled or rejected; while the
    callback's promise waits, [setLoading(false)] has not been called. *)
Theorem loadingWrapper_brackets {A} (callback : unit → promise A)
    (answers : list (outcome response)) :
  run (loadingWrapper callback) answers =
  match run (callback tt) answers with
  | (es, Some o) => ((SetLoading true :: es ++ [SetLoading false])%list, Some o)
  | (es, None) => (SetLoading true :: es, None)
  end.
Proof.
  unfold loadingWrapper. rewrite run_emit, run_finally. simpl.
  by destruct (run (callback tt) answers) as [es [o|]].
Qed.

(** The handler written out in the first two components is the handler
    that goes through the hook. *)
Lemma handleSubmit_inline_wrapped makeSuccessfulApiCall :
  handleSubmit_inline makeSuccessfulApiCall =
  handleSubmit_wrapped makeSuccessfulApiCall.
Proof. reflexivity. Qed.

Lemma loading_after_app es es' l :
  loading_after (es ++ es') l = loading_after es' (loading_after es l).
Proof. apply foldl_app. Qed.


Lemma loading_after_quiet es l :
  Forall (λ e, ∀ b, e ≠ SetLoading b) es → loading_after es l = l.
Proof.
  intros Hes. revert l. induction Hes as [|e es He _ IH]; intros l; [done|].
  destruct e as [b| |]; [by destruct (He b) | apply IH..].
Qed.

Lemma run_quiet {A} (p : promise A) :
  ∀ answers, quiet p →
             Forall (λ e, ∀ b, e ≠ SetLoading b) (fst (run p answers)).
Proof.
  induction p as [o|e p IH|k IH]; intros answers Hq; simpl.
  - constructor.
  - destruct Hq as [He Hp]. specialize (IH answers Hp).
    destruct (run p answers) as [es r]. by constructor.
  - destruct answers as [|o answers]; [constructor | by apply IH].
Qed.

(** The [loading] state [loadingWrapper] leaves, whatever it was before and
    whatever the callback does short of calling [setLoading]: [false] once
    the callback's promise has settled, [true] while it waits. *)
Theorem loadingWrapper_loading {A} (callback : unit → promise A)
    (answers : list (outcome response)) (initialLoadingState : bool) :
  quiet (callback tt) →
  loading_after (fst (run (loadingWrapper callback) answers)) initialLoadingState =
  match snd (run (callback tt) answers) with
  | Some _ => false
  | None => true
  end.
Proof.
  intros Hq. rewrite loadingWrapper_brackets.
  pose proof (run_quiet (callback tt) answers Hq) as Hes.
  destruct (run (callback tt) answers) as [es [o|]]; simpl in *.
  - change (loading_after (es ++ [SetLoading false]) true = false).
    by rewrite loading_after_app.
  - change (loading_after es true = true). by apply loading_after_quiet.
Qed.

Lemma loadingWrapper_loading_witness :
  quiet (Await (λ o : outcome response, Settled o)) ∧
  loading_after
    (fst (run (loadingWrapper (λ _, Await (λ o : outcome response, Settled o)))
              [Rejected (Error "timeout")]))
    true = false.
Proof.
  assert (quiet (Await (λ o : outcome response, Settled o))) as Hq.
  { intros o. exact I. }
  split; [exact Hq|].
  exact (loadingWrapper_loading
           (λ _, Await (λ o : outcome response, Settled o))
           [Rejected (Error "timeout")] true Hq).
Defined.


(** A filter that does not throw filters as [filter] does. *)
Lemma filter_total (f : value → bool) xs :
  filter_ (λ x, Fulfilled (f x)) xs = Fulfilled (List.filter f xs).
Proof.
  induction xs as [|x xs IH]; simpl; [done|]. rewrite IH. by destruct (f x).
Qed.

(** *** The component on the page *)

Lemma advance_emit {A} es (p : promise A) :
  advance (emit es p) = ((es ++ fst (advance p))%list, snd (advance p)).
Proof.
  induction es as [|e es IH]; simpl.
  - by destruct (advance p).
  - by rewrite IH.
Qed.

Lemma advance_finally {A} (p : promise A) (f : callback unit unit) :
  advance (finally_ p f) =
  match advance p with
  | (es, Settled o) =>
      ((es ++ fst (f tt))%list,
       Settled match snd (f tt) with
               | Fulfilled _ => o
               | Rejected err => Rejected err
               end)
  | (es, q) => (es, finally_ q f)
  end.
Proof.
  induction p as [o|e p IH|k _]; simpl.
  - rewrite advance_emit. simpl. by rewrite app_nil_r.
  - rewrite IH. by destruct (advance p) as [es [o|e' q|k]].
  - done.
Qed.







(** The converse fails.  Take a callback whose promise waits for the
    server and settles on its answer: after two clicks and the answer to
    the first call, [loading] is off while the second call still waits. *)
Theorem loading_off_while_in_flight {A} (callback : unit → promise A)
    (es es' : list effect) (k : outcome response → promise A)
    (o : outcome response) (o' : outcome A) :
  advance (callback tt) = (es, Await k) →
  advance (k o) = (es', Settled o') →
  let pg := after (loadingWrapper callback) false [Click; Click; Answer 0 o] in
  loading pg = false ∧ ∃ p, calls pg !! 1%nat = Some p ∧ pending p = true.
Proof.
  intros Hwaits Hsettles. unfold after, loadingWrapper. simpl.
  change (λ _ : (), (setLoading false, Fulfilled ())) with reset.
  rewrite advance_finally, Hwaits. simpl.
  rewrite advance_finally, Hsettles. simpl.
  split; [|by eexists].
  unfold loading_after. by rewrite foldl_app.
Qed.

Lemma loading_off_while_in_flight_witness :
  let pg := after (loadingWrapper (λ _, Await (λ o : outcome response, Settled o)))
                  false [Click; Click; Answer 0 (Fulfilled (Response []))] in
  loading pg = false ∧ ∃ p, calls pg !! 1%nat = Some p ∧ pending p = true.
Proof.
  exact (loading_off_while_in_flight
           (λ _, Await (λ o : outcome response, Settled o))
           [] [] (λ o, Settled o) (Fulfilled (Response [])) (Fulfilled (Response []))
           eq_refl eq_refl).
Defined.


End LoadingStateFacts.

(** ** The order of the configuration's properties *)

Module ConfigOrderFacts.
Import JS JSFacts Config ConfigFacts Literal.





End ConfigOrderFacts.
